(** * servo.cpp: the sweep controller of the Flipper firmware

    A shallow embedding of [src/servo.cpp] (an ESP32 Arduino sketch part)
    and the properties of its two entry points, [servoInit] and [servo].

    The file has three layers:
    - [Int32]: the C++ [int] and [uint32_t] of the target, as [Z] with the
      wrap-around written out;
    - the platform the sketch talks to (the [Servo] object of ESP32Servo and
      the Arduino [delay]), as a world state and a log of the calls made;
    - the two functions of the source, in a state monad with fuel for
      the loops. *)

From Stdlib Require Import ZArith List Lia Bool.
Import ListNotations.
Open Scope Z_scope.

(** ** Machine integers *)

Module Int32.

Definition modulus : Z := 2 ^ 32.
Definition half : Z := 2 ^ 31.

(** The values of a C++ [int] on the ESP32. *)
Definition in_range (z : Z) : Prop := - half <= z < half.

(** Reduction of a mathematical integer to the [int] it wraps to. *)
Definition wrap (z : Z) : Z := (z + half) mod modulus - half.

(** [pos--] and [pos++] on an [int]. *)
Definition pred (z : Z) : Z := wrap (z - 1).
Definition succ (z : Z) : Z := wrap (z + 1).

(** Conversion of an [int] argument to a [uint32_t] parameter. *)
Definition to_uint32 (z : Z) : Z := z mod modulus.

End Int32.

(** ** The platform: the servo object and the delay primitive *)

(** The calls the sketch makes on the platform, with their arguments as
    the callee receives them. *)
Inductive event : Type :=
| EvSetPeriodHertz (hertz : Z)
| EvAttach (pin min max : Z)
| EvWrite (angle : Z)
| EvDelay (ms : Z).

(** Modelled from the spec: the declaration of the [Servo] class (library
    ESP32Servo) is not part of the sources.  The spec's data model gives the
    actuator handle a PWM carrier frequency, the pin it is bound to and the
    minimum and maximum pulse width in microseconds; these four make the
    configuration. *)
Record ServoConfig : Type := mkConfig {
  periodHertz : Z;
  pinNumber : option Z;
  minPulse : Z;
  maxPulse : Z
}.

(** Modelled from the spec: besides its configuration the handle holds the
    driver's position register (the last commanded angle, if any). *)
Record Servo : Type := mkServo {
  config : ServoConfig;
  position : option Z
}.

(** The world the sketch runs in: the global [myservo] and the log of the
    platform calls made so far, oldest first. *)
Record world : Type := mkWorld {
  myservo : Servo;
  calls : list event
}.

(** Modelled from the spec: what each call does to the handle.
    [setPeriodHertz] stores the carrier frequency, [attach] binds the pin
    and stores the pulse-width bounds, [write] stores the commanded angle,
    [delay] only lets time pass. *)
Definition react (s : Servo) (e : event) : Servo :=
  match e with
  | EvSetPeriodHertz hertz =>
      mkServo (mkConfig hertz (pinNumber (config s))
                        (minPulse (config s)) (maxPulse (config s)))
              (position s)
  | EvAttach pin min max =>
      mkServo (mkConfig (periodHertz (config s)) (Some pin) min max)
              (position s)
  | EvWrite angle => mkServo (config s) (Some angle)
  | EvDelay _ => s
  end.

Definition apply_event (w : world) (e : event) : world :=
  mkWorld (react (myservo w) e) (calls w ++ [e]).

(** The world after a sequence of calls. *)
Definition replay (tr : list event) (w : world) : world :=
  fold_left apply_event tr w.

(** ** The monad of the sketch: state, and [None] when the fuel of a loop
    runs out *)

Definition M (A : Type) : Type := world -> option (A * world).

Definition ret {A : Type} (a : A) : M A := fun w => Some (a, w).

Definition bind {A B : Type} (c : M A) (k : A -> M B) : M B :=
  fun w => match c w with
           | Some (a, w') => k a w'
           | None => None
           end.

Definition out_of_fuel {A : Type} : M A := fun _ => None.

Declare Scope sketch_scope.
Delimit Scope sketch_scope with sketch.
Notation "c1 ;; c2" := (bind c1 (fun _ => c2))
  (at level 61, right associativity) : sketch_scope.
Open Scope sketch_scope.

Definition perform (e : event) : M unit :=
  fun w => Some (tt, apply_event w e).

(** [myservo.setPeriodHertz(hertz)] *)
Definition setPeriodHertz (hertz : Z) : M unit :=
  perform (EvSetPeriodHertz hertz).

(** [myservo.attach(pin, min, max)]; the sketch drops the returned channel. *)
Definition attach (pin min max : Z) : M unit :=
  perform (EvAttach pin min max).

(** [myservo.write(value)] *)
Definition write (value : Z) : M unit :=
  perform (EvWrite value).

(** Modelled from the spec: [delay] is the platform's blocking wait; the
    spec gives its duration as an unsigned count of milliseconds, so an
    [int] argument is converted to [uint32_t] when it is passed. *)
Definition delay (ms : Z) : M unit :=
  perform (EvDelay (Int32.to_uint32 ms)).

(** [for (int pos = init; cond(pos); pos = step(pos)) body(pos);] *)
Fixpoint for_loop (fuel : nat) (cond : Z -> bool) (step : Z -> Z)
         (body : Z -> M unit) (pos : Z) : M unit :=
  match fuel with
  | O => out_of_fuel
  | S fuel' =>
      if cond pos
      then body pos ;; for_loop fuel' cond step body (step pos)
      else ret tt
  end.

(** ** The source *)

(** [const int servoPin = 33;] *)
Definition servoPin : Z := 33.

(** [void servoInit()] *)
Definition servoInit : M unit :=
  setPeriodHertz 333 ;;
  attach servoPin 900 2100.

(** [void servo(int delayTime)]; [fuel] bounds the iterations of each
    loop. *)
Definition servo (fuel : nat) (delayTime : Z) : M unit :=
  for_loop fuel (fun pos => pos >=? 45) Int32.pred
           (fun pos => write pos ;; delay 1) 176 ;;
  delay 300 ;;
  for_loop fuel (fun pos => pos <=? 176) Int32.succ
           (fun pos => write pos) 45 ;;
  delay delayTime.

(** ** Observations on a run *)

(** The calls a computation adds to the log when started in [w]. *)
Definition issued (c : M unit) (w : world) : option (list event) :=
  match c w with
  | Some (_, w') => Some (skipn (length (calls w)) (calls w'))
  | None => None
  end.

(** The angles commanded to the actuator, in order. *)
Fixpoint commanded (tr : list event) : list Z :=
  match tr with
  | [] => []
  | EvWrite a :: tr' => a :: commanded tr'
  | _ :: tr' => commanded tr'
  end.

(** The durations passed to [delay], in order, and their sum. *)
Fixpoint delays (tr : list event) : list Z :=
  match tr with
  | [] => []
  | EvDelay ms :: tr' => ms :: delays tr'
  | _ :: tr' => delays tr'
  end.

Definition blocking_ms (tr : list event) : Z :=
  fold_right Z.add 0 (delays tr).

Definition is_write (e : event) : bool :=
  match e with EvWrite _ => true | _ => false end.

Definition is_delay (e : event) : bool :=
  match e with EvDelay _ => true | _ => false end.

(** ** The sweep, as the spec words it *)

(** 176, 175, ..., 45 *)
Definition descending : list Z :=
  map (fun i => 176 - Z.of_nat i) (seq 0 132).

(** 45, 46, ..., 176 *)
Definition ascending : list Z :=
  map (fun i => 45 + Z.of_nat i) (seq 0 132).

(** Phase 1: each angle commanded, then a pause of 1 ms. *)
Definition phase1_calls : list event :=
  flat_map (fun a => [EvWrite a; EvDelay 1]) descending.

(** Phase 3: each angle commanded, nothing in between. *)
Definition phase3_calls : list event :=
  map EvWrite ascending.

(** The calls of one sweep, without the trailing pause. *)
Definition traversal_calls : list event :=
  phase1_calls ++ [EvDelay 300] ++ phase3_calls.

Definition sweep_calls (delayTime : Z) : list event :=
  traversal_calls ++ [EvDelay (Int32.to_uint32 delayTime)].

(** The configuration [servoInit] asks for. *)
Definition init_config : ServoConfig :=
  mkConfig 333 (Some 33) 900 2100.

Definition init_calls : list event :=
  [EvSetPeriodHertz 333; EvAttach 33 900 2100].

(** A board before [servoInit]: nothing configured, nothing logged. *)
Definition power_on : world :=
  mkWorld (mkServo (mkConfig 50 None 544 2400) None) [].

(** The spec's account of the blocking time of one sweep with cycle delay
    [d]: the durations passed to [delay] add up to 131 + 300 + 0 + d
    milliseconds, up to [tol] milliseconds. *)
Definition duration_within (tol d : Z) : Prop :=
  forall k w, exists tr,
    issued (servo (133 + k) d) w = Some tr /\
    Z.abs (blocking_ms tr - (131 + 300 + 0 + d)) <= tol.

(** The angles the two loops still have to visit when [n] iterations
    remain: [44 + n, ..., 45] going down, [177 - n, ..., 176] going up. *)
Fixpoint down_from (n : nat) : list Z :=
  match n with
  | O => []
  | S m => (44 + Z.of_nat (S m)) :: down_from m
  end.

Fixpoint up_to (n : nat) : list Z :=
  match n with
  | O => []
  | S m => (177 - Z.of_nat (S m)) :: up_to m
  end.

(** ** Further observations *)

(** Successive sweep calls, one for each cycle delay of the list, as a
    caller that invokes [servo] repeatedly makes them. *)
Fixpoint servo_cycles (fuel : nat) (delayTimes : list Z) : M unit :=
  match delayTimes with
  | [] => ret tt
  | d :: rest => servo fuel d ;; servo_cycles fuel rest
  end.

(** A sequence of angles in which neighbours are at most one degree
    apart. *)
Fixpoint smooth (angles : list Z) : bool :=
  match angles with
  | a :: (b :: _) as rest => (Z.abs (a - b) <=? 1) && smooth rest
  | _ => true
  end.

(** For each commanded angle, the milliseconds of [delay] that were asked
    for before it, counted from [now]. *)
Fixpoint timeline (now : Z) (tr : list event) : list (Z * Z) :=
  match tr with
  | [] => []
  | EvWrite a :: tr' => (now, a) :: timeline now tr'
  | EvDelay ms :: tr' => timeline (now + ms) tr'
  | _ :: tr' => timeline now tr'
  end.

(** * Properties *)

(** ** Machine integers *)

Section Int32Facts.

Import Int32.

Lemma wrap_in_range z : in_range z -> wrap z = z.
Proof.
  unfold in_range, wrap, half, modulus. intros H.
  rewrite Z.mod_small; lia.
Qed.

Lemma to_uint32_nonneg z : 0 <= z < half -> to_uint32 z = z.
Proof.
  unfold to_uint32, half, modulus. intros H.
  apply Z.mod_small. lia.
Qed.

Lemma to_uint32_neg z : - half <= z < 0 -> to_uint32 z = z + modulus.
Proof.
  unfold to_uint32, half, modulus. intros H.
  symmetry. apply (Z.mod_unique_pos _ _ (-1)); lia.
Qed.

Lemma to_uint32_bounds z : 0 <= to_uint32 z < modulus.
Proof. unfold to_uint32, modulus. apply Z.mod_pos_bound. lia. Qed.

Lemma pred_small z : - half < z < half -> pred z = z - 1.
Proof.
  intros H. unfold pred. apply wrap_in_range.
  unfold in_range, half in *. lia.
Qed.

Lemma succ_small z : - half <= z < half - 1 -> succ z = z + 1.
Proof.
  intros H. unfold succ. apply wrap_in_range.
  unfold in_range, half in *. lia.
Qed.

End Int32Facts.

(** ** Replaying a log *)

Lemma replay_app tr1 tr2 w :
  replay (tr1 ++ tr2) w = replay tr2 (replay tr1 w).
Proof. unfold replay. apply fold_left_app. Qed.

Lemma calls_replay tr : forall w, calls (replay tr w) = calls w ++ tr.
Proof.
  induction tr as [|e tr IH]; intros w; simpl.
  - now rewrite app_nil_r.
  - rewrite IH. simpl. now rewrite <- app_assoc.
Qed.

Lemma skipn_length_app {A : Type} (l t : list A) :
  skipn (length l) (l ++ t) = t.
Proof. induction l as [|x l IH]; simpl; auto. Qed.

Lemma issued_replay (c : M unit) (w : world) (tr : list event) :
  c w = Some (tt, replay tr w) -> issued c w = Some tr.
Proof.
  intros H. unfold issued. rewrite H, calls_replay.
  now rewrite skipn_length_app.
Qed.

Lemma commanded_app tr1 tr2 :
  commanded (tr1 ++ tr2) = commanded tr1 ++ commanded tr2.
Proof.
  induction tr1 as [|[]]; simpl; auto. now rewrite IHtr1.
Qed.

Lemma delays_app tr1 tr2 : delays (tr1 ++ tr2) = delays tr1 ++ delays tr2.
Proof.
  induction tr1 as [|[]]; simpl; auto. now rewrite IHtr1.
Qed.

Lemma blocking_ms_app tr1 tr2 :
  blocking_ms (tr1 ++ tr2) = blocking_ms tr1 + blocking_ms tr2.
Proof.
  unfold blocking_ms. rewrite delays_app.
  induction (delays tr1) as [|x l IH]; simpl; lia.
Qed.

(** Only [setPeriodHertz] and [attach] touch the configuration. *)
Lemma config_replay tr :
  forallb (fun e => is_write e || is_delay e) tr = true ->
  forall w, config (myservo (replay tr w)) = config (myservo w).
Proof.
  induction tr as [|e tr IH]; simpl; intros H w; auto.
  apply andb_prop in H as [He Htr].
  change (config (myservo (replay tr (apply_event w e)))
          = config (myservo w)).
  rewrite (IH Htr). destruct e; simpl in *; auto; discriminate.
Qed.

(** ** Running a sequence *)

Lemma bind_run {A B : Type} (c : M A) (k : A -> M B) w a w' :
  c w = Some (a, w') -> bind c k w = k a w'.
Proof. intros H. unfold bind. now rewrite H. Qed.

Lemma bind_stuck {A B : Type} (c : M A) (k : A -> M B) w :
  c w = None -> bind c k w = None.
Proof. intros H. unfold bind. now rewrite H. Qed.

(** ** The two loops *)

Lemma phase1_loop n :
  (n <= 132)%nat ->
  forall fuel w, (n < fuel)%nat ->
    for_loop fuel (fun pos => pos >=? 45) Int32.pred
             (fun pos => write pos ;; delay 1) (44 + Z.of_nat n) w
    = Some (tt, replay (flat_map (fun a => [EvWrite a; EvDelay 1])
                                 (down_from n)) w).
Proof.
  induction n as [|n IH]; intros Hn fuel w Hfuel;
    (destruct fuel as [|fuel]; [lia|]).
  - reflexivity.
  - cbn [for_loop].
    replace (44 + Z.of_nat (S n) >=? 45) with true
      by (symmetry; apply Z.geb_le; lia).
    unfold bind, write, delay, perform.
    rewrite pred_small by (unfold Int32.half; lia).
    replace (44 + Z.of_nat (S n) - 1) with (44 + Z.of_nat n) by lia.
    rewrite IH by lia. reflexivity.
Qed.

Lemma phase1_starved fuel :
  forall n w, (fuel <= n <= 132)%nat ->
    for_loop fuel (fun pos => pos >=? 45) Int32.pred
             (fun pos => write pos ;; delay 1) (44 + Z.of_nat n) w
    = None.
Proof.
  induction fuel as [|fuel IH]; intros n w Hn; [reflexivity|].
  destruct n as [|n]; [lia|]. cbn [for_loop].
  replace (44 + Z.of_nat (S n) >=? 45) with true
    by (symmetry; apply Z.geb_le; lia).
  unfold bind, write, delay, perform.
  rewrite pred_small by (unfold Int32.half; lia).
  replace (44 + Z.of_nat (S n) - 1) with (44 + Z.of_nat n) by lia.
  apply IH. lia.
Qed.

Lemma phase3_loop n :
  (n <= 132)%nat ->
  forall fuel w, (n < fuel)%nat ->
    for_loop fuel (fun pos => pos <=? 176) Int32.succ
             (fun pos => write pos) (177 - Z.of_nat n) w
    = Some (tt, replay (map EvWrite (up_to n)) w).
Proof.
  induction n as [|n IH]; intros Hn fuel w Hfuel;
    (destruct fuel as [|fuel]; [lia|]).
  - reflexivity.
  - cbn [for_loop].
    replace (177 - Z.of_nat (S n) <=? 176) with true
      by (symmetry; apply Z.leb_le; lia).
    unfold bind, write, perform.
    rewrite succ_small by (unfold Int32.half; lia).
    replace (177 - Z.of_nat (S n) + 1) with (177 - Z.of_nat n) by lia.
    rewrite IH by lia. reflexivity.
Qed.

Lemma down_from_descending : down_from 132 = descending.
Proof. reflexivity. Qed.

Lemma up_to_ascending : up_to 132 = ascending.
Proof. reflexivity. Qed.

(** With fuel for 133 loop tests the sweep runs to its end, and the world
    it leaves is the one its calls lead to. *)
Lemma servo_run k delayTime w :
  servo (133 + k) delayTime w = Some (tt, replay (sweep_calls delayTime) w).
Proof.
  assert (fuel_ok : (132 < 133 + k)%nat) by lia.
  pose proof (phase1_loop 132 (Nat.le_refl _) _ w fuel_ok) as H1.
  change (44 + Z.of_nat 132) with 176 in H1.
  rewrite down_from_descending in H1.
  unfold servo. rewrite (bind_run _ _ _ _ _ H1).
  rewrite (bind_run (delay 300) _ _ tt _ eq_refl).
  match goal with
  | |- bind _ _ ?w' = _ =>
      pose proof (phase3_loop 132 (Nat.le_refl _) _ w' fuel_ok) as H3
  end.
  change (177 - Z.of_nat 132) with 45 in H3.
  rewrite up_to_ascending in H3.
  rewrite (bind_run _ _ _ _ _ H3).
  unfold delay, perform, sweep_calls, traversal_calls.
  rewrite !replay_app. reflexivity.
Qed.

(** With less fuel the model stops inside the first loop. *)
Lemma servo_starved fuel delayTime w :
  (fuel <= 132)%nat -> servo fuel delayTime w = None.
Proof.
  intros H.
  pose proof (phase1_starved fuel 132 w (conj H (Nat.le_refl _))) as H1.
  change (44 + Z.of_nat 132) with 176 in H1.
  unfold servo. now rewrite (bind_stuck _ _ _ H1).
Qed.

(** The model runs: from a fresh board a sweep makes 398 calls and leaves
    the actuator at 176; 132 units of fuel are one short. *)
Example servo_run_power_on :
  option_map (fun r => (position (myservo (snd r)), length (calls (snd r))))
             (servo 133 0 power_on)
  = Some (Some 176, 398%nat).
Proof. vm_compute. reflexivity. Qed.

Example servo_short_of_fuel : servo 132 0 power_on = None.
Proof. vm_compute. reflexivity. Qed.

Lemma servo_issued k delayTime w :
  issued (servo (133 + k) delayTime) w = Some (sweep_calls delayTime).
Proof. apply issued_replay, servo_run. Qed.

(** ** The traces of a sweep *)

Lemma commanded_phase1 : commanded phase1_calls = descending.
Proof. reflexivity. Qed.

Lemma commanded_phase3 : commanded phase3_calls = ascending.
Proof. reflexivity. Qed.

Lemma commanded_traversal : commanded traversal_calls = descending ++ ascending.
Proof. reflexivity. Qed.

Lemma commanded_sweep d : commanded (sweep_calls d) = descending ++ ascending.
Proof.
  unfold sweep_calls. rewrite commanded_app, commanded_traversal.
  apply app_nil_r.
Qed.

Lemma delays_traversal : delays traversal_calls = repeat 1 132 ++ [300].
Proof. reflexivity. Qed.

Lemma blocking_ms_traversal : blocking_ms traversal_calls = 432.
Proof. reflexivity. Qed.

Lemma blocking_ms_sweep d :
  blocking_ms (sweep_calls d) = 432 + Int32.to_uint32 d.
Proof.
  unfold sweep_calls. rewrite blocking_ms_app, blocking_ms_traversal.
  unfold blocking_ms. cbn [delays fold_right]. lia.
Qed.

Lemma sweep_calls_kinds d :
  forallb (fun e => is_write e || is_delay e) (sweep_calls d) = true.
Proof.
  unfold sweep_calls. rewrite forallb_app. reflexivity.
Qed.

Lemma angles_in_range :
  Forall (fun a => 45 <= a <= 176) (descending ++ ascending).
Proof.
  apply Forall_forall. intros a Ha.
  assert (H : forallb (fun a => (45 <=? a) && (a <=? 176))
                      (descending ++ ascending) = true) by reflexivity.
  rewrite forallb_forall in H. specialize (H a Ha).
  apply andb_prop in H as [H1 H2].
  apply Z.leb_le in H1, H2. lia.
Qed.

(** * The claims *)

(** C1. For every cycle-delay argument, one call of the sweep issues the
    calls of phase 1, the settle pause, the calls of phase 3 and the
    trailing pause, in that order; the angles commanded in phase 1 are
    exactly 176, 175, ..., 45 (132 values), those commanded in phase 3 are
    exactly 45, 46, ..., 176 (132 values), and the call commands no other
    angle. *)
Theorem servo_commanded_sequence (k : nat) (delayTime : Z) (w : world) :
  issued (servo (133 + k) delayTime) w
  = Some (phase1_calls ++ [EvDelay 300] ++ phase3_calls
          ++ [EvDelay (Int32.to_uint32 delayTime)]) /\
  commanded phase1_calls = map (fun i => 176 - Z.of_nat i) (seq 0 132) /\
  commanded phase3_calls = map (fun i => 45 + Z.of_nat i) (seq 0 132) /\
  length (commanded phase1_calls) = 132%nat /\
  length (commanded phase3_calls) = 132%nat /\
  commanded (phase1_calls ++ [EvDelay 300] ++ phase3_calls
             ++ [EvDelay (Int32.to_uint32 delayTime)])
  = commanded phase1_calls ++ commanded phase3_calls.
Proof.
  split.
  - rewrite servo_issued. unfold sweep_calls, traversal_calls.
    now rewrite <- !app_assoc.
  - repeat split; reflexivity.
Qed.

(** C2, as amended. For every cycle delay d with 0 <= d < 2^31, the
    durations passed to [delay] during one sweep add up to exactly
    132 + 300 + 0 + d milliseconds (132 pauses of 1 ms in phase 1, the
    settle pause, nothing in phase 3, the cycle delay), which is within
    1 ms of 131 + 300 + 0 + d. *)
Theorem servo_blocking_duration (k : nat) (d : Z) (w : world) :
  0 <= d < Int32.half ->
  issued (servo (133 + k) d) w = Some (sweep_calls d) /\
  blocking_ms phase1_calls = 132 /\
  blocking_ms phase3_calls = 0 /\
  blocking_ms (sweep_calls d) = 132 + 300 + 0 + d /\
  Z.abs (blocking_ms (sweep_calls d) - (131 + 300 + 0 + d)) <= 1.
Proof.
  intros Hd. rewrite servo_issued, blocking_ms_sweep.
  rewrite (to_uint32_nonneg d Hd).
  repeat split; try reflexivity; lia.
Qed.

Lemma servo_blocking_duration_witness :
  0 <= 1000 < Int32.half /\
  (issued (servo 133 1000) power_on = Some (sweep_calls 1000) /\
   blocking_ms phase1_calls = 132 /\
   blocking_ms phase3_calls = 0 /\
   blocking_ms (sweep_calls 1000) = 132 + 300 + 0 + 1000 /\
   Z.abs (blocking_ms (sweep_calls 1000) - (131 + 300 + 0 + 1000)) <= 1).
Proof.
  assert (H : 0 <= 1000 < Int32.half) by (unfold Int32.half; lia).
  split; [exact H | exact (servo_blocking_duration 0 1000 power_on H)].
Defined.

(** C2, as stated, fails at the cycle delay -1: the trailing pause is then
    4294967295 ms, the durations add up to 4294967727 ms, and that is
    2^32 + 1 ms away from 131 + 300 + 0 + (-1), beyond any tolerance of a
    timer (here: a whole second). *)
Lemma servo_blocking_duration_negative :
  Int32.in_range (-1) /\
  issued (servo 133 (-1)) power_on
  = Some (traversal_calls ++ [EvDelay 4294967295]) /\
  blocking_ms (traversal_calls ++ [EvDelay 4294967295]) = 4294967727 /\
  4294967727 - (131 + 300 + 0 + (-1)) = 2 ^ 32 + 1 /\
  ~ duration_within 1000 (-1).
Proof.
  split; [unfold Int32.in_range, Int32.half; lia|].
  split; [exact (servo_issued 0 (-1) power_on)|].
  split; [reflexivity|]. split; [reflexivity|].
  intros H. destruct (H 0%nat power_on) as [tr [Htr Habs]].
  rewrite (servo_issued 0 (-1) power_on) in Htr.
  injection Htr as <-. rewrite blocking_ms_sweep in Habs.
  change (Int32.to_uint32 (-1)) with 4294967295 in Habs. lia.
Qed.

(** C3. For every cycle-delay argument a sweep call returns: with fuel for
    the 133 tests of each loop the model yields a final world.  That world
    is the one reached by one full traversal (down 176..45, settle pause,
    up 45..176) followed by the caller's pause, which is the last call made.
    There is no other outcome: whatever the fuel, the model either has not
    finished or has finished with exactly this world. *)
Theorem servo_full_traversal_then_return (delayTime : Z) (w : world) :
  (forall k, servo (133 + k) delayTime w
             = Some (tt, replay (sweep_calls delayTime) w)) /\
  (forall fuel, servo fuel delayTime w = None \/
                servo fuel delayTime w
                = Some (tt, replay (sweep_calls delayTime) w)) /\
  calls (replay (sweep_calls delayTime) w)
  = calls w ++ traversal_calls ++ [EvDelay (Int32.to_uint32 delayTime)] /\
  commanded traversal_calls = descending ++ ascending /\
  last (sweep_calls delayTime) (EvWrite 0)
  = EvDelay (Int32.to_uint32 delayTime).
Proof.
  split; [intros k; apply servo_run|].
  split.
  - intros fuel. destruct (Nat.le_gt_cases fuel 132) as [H|H].
    + left. now apply servo_starved.
    + right. replace fuel with (133 + (fuel - 133))%nat by lia.
      apply servo_run.
  - split; [apply calls_replay|]. split; [reflexivity|].
    unfold sweep_calls. apply last_last.
Qed.

(** C4. Initialization sets the carrier frequency to 333 Hz and attaches
    the actuator to pin 33 with pulse-width bounds 900 and 2100
    microseconds, and nothing else; a second initialization makes the same
    two calls again and leaves the handle as the first one left it. *)
Theorem servoInit_idempotent (w : world) :
  servoInit w = Some (tt, replay init_calls w) /\
  issued servoInit w = Some [EvSetPeriodHertz 333; EvAttach 33 900 2100] /\
  config (myservo (replay init_calls w)) = mkConfig 333 (Some 33) 900 2100 /\
  (servoInit ;; servoInit) w = Some (tt, replay (init_calls ++ init_calls) w) /\
  issued (servoInit ;; servoInit) w = Some (init_calls ++ init_calls) /\
  myservo (replay (init_calls ++ init_calls) w)
  = myservo (replay init_calls w).
Proof.
  assert (H1 : servoInit w = Some (tt, replay init_calls w)) by reflexivity.
  assert (H2 : (servoInit ;; servoInit) w
               = Some (tt, replay (init_calls ++ init_calls) w))
    by reflexivity.
  split; [exact H1|].
  split; [exact (issued_replay _ _ _ H1)|].
  split; [reflexivity|].
  split; [exact H2|].
  split; [exact (issued_replay _ _ _ H2)|reflexivity].
Qed.

(** C5. Within one sweep call every angle of the descending phase is
    followed by a pause of 1 ms (132 pauses, that is 131 up to one), the
    angles of the ascending phase follow each other with no pause in
    between, and a pause of 300 ms stands between the two phases. *)
Theorem servo_pauses (k : nat) (delayTime : Z) (w : world) :
  issued (servo (133 + k) delayTime) w
  = Some (flat_map (fun a => [EvWrite a; EvDelay 1]) descending
          ++ [EvDelay 300]
          ++ map EvWrite ascending
          ++ [EvDelay (Int32.to_uint32 delayTime)]) /\
  delays (flat_map (fun a => [EvWrite a; EvDelay 1]) descending)
  = repeat 1 132 /\
  Z.abs (Z.of_nat (length (delays phase1_calls)) - 131) <= 1 /\
  delays (map EvWrite ascending) = [] /\
  forallb is_write (map EvWrite ascending) = true.
Proof.
  split.
  - rewrite servo_issued. unfold sweep_calls, traversal_calls.
    now rewrite <- !app_assoc.
  - split; [reflexivity|]. split; [|split; reflexivity].
    change (length (delays phase1_calls)) with 132%nat. lia.
Qed.

(** C6. For every cycle-delay argument every angle commanded during a
    sweep call lies in [45, 176]; neither 0 nor 180 is commanded. *)
Theorem servo_angles_bounded (k : nat) (delayTime : Z) (w : world) :
  exists tr,
    issued (servo (133 + k) delayTime) w = Some tr /\
    Forall (fun a => 45 <= a <= 176) (commanded tr) /\
    ~ In 0 (commanded tr) /\
    ~ In 180 (commanded tr).
Proof.
  exists (sweep_calls delayTime).
  split; [apply servo_issued|].
  rewrite commanded_sweep.
  pose proof angles_in_range as H. rewrite Forall_forall in H.
  split; [now apply Forall_forall|].
  split; intros Hin; apply H in Hin; lia.
Qed.

(** C7. With a cycle delay of 0 the sweep still makes both phases and the
    settle pause in full; the trailing pause is a [delay] of 0 ms, so the
    blocking time of the call is that of the traversal alone, 432 ms. *)
Theorem servo_zero_delay (k : nat) (w : world) :
  servo (133 + k) 0 w = Some (tt, replay (traversal_calls ++ [EvDelay 0]) w) /\
  issued (servo (133 + k) 0) w = Some (traversal_calls ++ [EvDelay 0]) /\
  traversal_calls = phase1_calls ++ [EvDelay 300] ++ phase3_calls /\
  commanded traversal_calls = descending ++ ascending /\
  delays traversal_calls = repeat 1 132 ++ [300] /\
  blocking_ms (traversal_calls ++ [EvDelay 0]) = blocking_ms traversal_calls /\
  blocking_ms (traversal_calls ++ [EvDelay 0]) = 432.
Proof.
  split; [exact (servo_run k 0 w)|].
  split; [exact (servo_issued k 0 w)|].
  repeat split; reflexivity.
Qed.

(** C8. For any two cycle delays and any prior world, two sweep calls in
    succession issue the calls of one sweep followed by the calls of the
    other; the angles commanded are two full traversals, each starting at
    176 whatever position the call found; and the calls of a sweep are the
    same from every world. *)
Theorem servo_twice (k1 k2 : nat) (d1 d2 : Z) (w : world) :
  issued (servo (133 + k1) d1 ;; servo (133 + k2) d2) w
  = Some (sweep_calls d1 ++ sweep_calls d2) /\
  commanded (sweep_calls d1 ++ sweep_calls d2)
  = (descending ++ ascending) ++ (descending ++ ascending) /\
  hd_error (commanded (sweep_calls d1)) = Some 176 /\
  hd_error (commanded (sweep_calls d2)) = Some 176 /\
  (forall w', issued (servo (133 + k2) d2) w' = Some (sweep_calls d2)) /\
  (forall w', issued (servo (133 + k2) d2) w'
              = issued (servo (133 + k2) d2) w).
Proof.
  split.
  - apply issued_replay.
    rewrite (bind_run _ _ _ _ _ (servo_run k1 d1 w)).
    rewrite servo_run. now rewrite replay_app.
  - split; [now rewrite commanded_app, !commanded_sweep|].
    rewrite !commanded_sweep.
    split; [reflexivity|]. split; [reflexivity|].
    split; intros w'; now rewrite !servo_issued.
Qed.

(** C9. The cycle delay is a C++ [int]; a negative one reaches [delay]
    reduced modulo 2^32, so the call still runs to its end and its trailing
    pause is delayTime + 2^32 ms, at least 2^31 ms. *)
Theorem servo_negative_delay (k : nat) (delayTime : Z) (w : world) :
  Int32.in_range delayTime -> delayTime < 0 ->
  servo (133 + k) delayTime w
  = Some (tt, replay (traversal_calls ++ [EvDelay (delayTime + 2 ^ 32)]) w) /\
  issued (servo (133 + k) delayTime) w
  = Some (traversal_calls ++ [EvDelay (delayTime + 2 ^ 32)]) /\
  delayTime + 2 ^ 32 = delayTime mod 2 ^ 32 /\
  2 ^ 31 <= delayTime + 2 ^ 32 < 2 ^ 32.
Proof.
  intros Hr Hneg.
  assert (Hc : Int32.to_uint32 delayTime = delayTime + 2 ^ 32)
    by (apply to_uint32_neg; unfold Int32.in_range in Hr; lia).
  rewrite <- Hc.
  split; [apply servo_run|]. split; [apply servo_issued|].
  split; [reflexivity|].
  rewrite Hc. unfold Int32.in_range, Int32.half in Hr. lia.
Qed.

Lemma servo_negative_delay_witness :
  Int32.in_range (-1) /\ -1 < 0 /\
  (servo 133 (-1) power_on
   = Some (tt, replay (traversal_calls ++ [EvDelay (-1 + 2 ^ 32)]) power_on) /\
   issued (servo 133 (-1)) power_on
   = Some (traversal_calls ++ [EvDelay (-1 + 2 ^ 32)]) /\
   -1 + 2 ^ 32 = (-1) mod 2 ^ 32 /\
   2 ^ 31 <= -1 + 2 ^ 32 < 2 ^ 32).
Proof.
  assert (Hr : Int32.in_range (-1))
    by (unfold Int32.in_range, Int32.half; lia).
  assert (Hneg : -1 < 0) by lia.
  split; [exact Hr|]. split; [exact Hneg|].
  exact (servo_negative_delay 0 (-1) power_on Hr Hneg).
Defined.

(** C10. A sweep call never changes the configuration of the actuator: it
    makes position writes and delays only, and the carrier frequency, the
    pin and the pulse-width bounds are after the call what they were before
    it; after [servoInit] they are 333 Hz, pin 33, 900 and 2100. *)
Theorem servo_preserves_config (k : nat) (delayTime : Z) (w : world) :
  exists w',
    servo (133 + k) delayTime w = Some (tt, w') /\
    config (myservo w') = config (myservo w) /\
    (exists tr, issued (servo (133 + k) delayTime) w = Some tr /\
                forallb (fun e => is_write e || is_delay e) tr = true) /\
    (exists w'', (servoInit ;; servo (133 + k) delayTime) w = Some (tt, w'') /\
                 config (myservo w'') = mkConfig 333 (Some 33) 900 2100).
Proof.
  exists (replay (sweep_calls delayTime) w).
  split; [apply servo_run|].
  split; [apply config_replay, sweep_calls_kinds|].
  split.
  - exists (sweep_calls delayTime).
    split; [apply servo_issued | apply sweep_calls_kinds].
  - exists (replay (sweep_calls delayTime) (replay init_calls w)).
    split.
    + rewrite (bind_run servoInit _ w tt (replay init_calls w) eq_refl).
      apply servo_run.
    + rewrite config_replay by apply sweep_calls_kinds. reflexivity.
Qed.

(** * Further properties of the sweep *)

(** ** Helper facts *)

Lemma smooth_app l : forall x y r,
  smooth (l ++ [x]) = true -> smooth (y :: r) = true ->
  Z.abs (x - y) <= 1 ->
  smooth ((l ++ [x]) ++ y :: r) = true.
Proof.
  induction l as [|a l IH]; intros x y r Hl Hr Hxy.
  - cbn [app smooth]. apply andb_true_intro.
    split; [now apply Z.leb_le | exact Hr].
  - destruct l as [|b l].
    + cbn [app smooth] in *. apply andb_prop in Hl as [Hab _].
      rewrite Hab. cbn [andb]. apply andb_true_intro.
      split; [now apply Z.leb_le | exact Hr].
    + change (smooth (a :: (b :: l) ++ [x]) = true) in Hl.
      change (smooth (a :: ((b :: l) ++ [x]) ++ y :: r) = true).
      cbn [app smooth] in Hl. apply andb_prop in Hl as [Hab Hl].
      specialize (IH x y r Hl Hr Hxy).
      cbn [app smooth] in *. now rewrite Hab, IH.
Qed.

Lemma timeline_app tr1 : forall now tr2,
  timeline now (tr1 ++ tr2)
  = timeline now tr1 ++ timeline (now + blocking_ms tr1) tr2.
Proof.
  unfold blocking_ms.
  induction tr1 as [|e tr1 IH]; intros now tr2.
  - cbn. now rewrite Z.add_0_r.
  - destruct e; cbn [app timeline delays fold_right]; rewrite IH;
      try reflexivity.
    now rewrite Z.add_assoc.
Qed.

Lemma servo_cycles_run k ds : forall w,
  servo_cycles (133 + k) ds w
  = Some (tt, replay (concat (map sweep_calls ds)) w).
Proof.
  induction ds as [|d ds IH]; intros w; [reflexivity|].
  cbn [servo_cycles map concat].
  rewrite (bind_run _ _ _ _ _ (servo_run k d w)), IH.
  now rewrite replay_app.
Qed.

Lemma commanded_cycles ds :
  commanded (concat (map sweep_calls ds))
  = concat (repeat (descending ++ ascending) (length ds)).
Proof.
  induction ds as [|d ds IH]; [reflexivity|].
  cbn [map concat length repeat].
  now rewrite commanded_app, commanded_sweep, IH.
Qed.

Lemma kinds_cycles ds :
  forallb (fun e => is_write e || is_delay e)
          (concat (map sweep_calls ds)) = true.
Proof.
  induction ds as [|d ds IH]; [reflexivity|].
  cbn [map concat]. now rewrite forallb_app, sweep_calls_kinds, IH.
Qed.

Lemma position_sweep d w :
  position (myservo (replay (sweep_calls d) w)) = Some 176.
Proof.
  unfold sweep_calls. rewrite replay_app. reflexivity.
Qed.

Lemma position_cycles ds : forall w,
  position (myservo (replay (concat (map sweep_calls ds)) w))
  = match ds with [] => position (myservo w) | _ :: _ => Some 176 end.
Proof.
  induction ds as [|d ds IH]; intros w; [reflexivity|].
  cbn [map concat]. rewrite replay_app, IH.
  destruct ds; [apply position_sweep | reflexivity].
Qed.

Lemma smooth_sweep : smooth (descending ++ ascending) = true.
Proof. reflexivity. Qed.

Lemma smooth_cycles n :
  smooth (concat (repeat (descending ++ ascending) n)) = true.
Proof.
  induction n as [|n IH]; [reflexivity|].
  cbn [repeat concat]. destruct n as [|n].
  - cbn [repeat concat]. rewrite app_nil_r. apply smooth_sweep.
  - remember (concat (repeat (descending ++ ascending) (S n))) as r eqn:Hr.
    assert (Hhd : exists t, r = 176 :: t).
    { rewrite Hr. cbn [repeat concat]. eexists. reflexivity. }
    destruct Hhd as [t Ht]. rewrite Ht in *.
    change (descending ++ ascending)
      with ((removelast (descending ++ ascending)) ++ [176]).
    apply smooth_app; [reflexivity | exact IH | cbn; lia].
Qed.

Lemma count_down_exact fuel (body : Z -> M unit) : forall pos w,
  44 <= pos <= 176 ->
  for_loop fuel (fun pos => pos >=? 45) Int32.pred body pos w
  = for_loop fuel (fun pos => pos >=? 45) Z.pred body pos w.
Proof.
  induction fuel as [|fuel IH]; intros pos w Hpos; [reflexivity|].
  cbn [for_loop]. destruct (pos >=? 45) eqn:Hc; [|reflexivity].
  apply Z.geb_le in Hc. unfold bind.
  destruct (body pos w) as [[u w']|]; [|reflexivity].
  rewrite pred_small by (unfold Int32.half; lia).
  apply IH. lia.
Qed.

Lemma count_up_exact fuel (body : Z -> M unit) : forall pos w,
  45 <= pos <= 177 ->
  for_loop fuel (fun pos => pos <=? 176) Int32.succ body pos w
  = for_loop fuel (fun pos => pos <=? 176) Z.succ body pos w.
Proof.
  induction fuel as [|fuel IH]; intros pos w Hpos; [reflexivity|].
  cbn [for_loop]. destruct (pos <=? 176) eqn:Hc; [|reflexivity].
  apply Z.leb_le in Hc. unfold bind.
  destruct (body pos w) as [[u w']|]; [|reflexivity].
  rewrite succ_small by (unfold Int32.half; lia).
  apply IH. lia.
Qed.

Lemma smooth_nth l : smooth l = true ->
  forall i a b, nth_error l i = Some a -> nth_error l (S i) = Some b ->
                Z.abs (a - b) <= 1.
Proof.
  induction l as [|x l IH]; intros Hs i a b Ha Hb.
  - destruct i; discriminate.
  - destruct l as [|y l]; [destruct i; discriminate|].
    cbn [smooth] in Hs. apply andb_prop in Hs as [Hxy Hs].
    destruct i as [|i].
    + cbn in Ha, Hb. injection Ha as <-. injection Hb as <-.
      now apply Z.leb_le.
    + exact (IH Hs i a b Ha Hb).
Qed.

Lemma blocking_ms_cycles ds :
  blocking_ms (concat (map sweep_calls ds))
  = 432 * Z.of_nat (length ds)
    + fold_right Z.add 0 (map Int32.to_uint32 ds).
Proof.
  induction ds as [|d ds IH]; [reflexivity|].
  cbn [map concat length fold_right].
  rewrite blocking_ms_app, blocking_ms_sweep, IH. lia.
Qed.

(** ** The properties *)

(** X1. Whatever [int] is passed, the durations a sweep call passes to
    [delay] add up to 432 ms plus the cycle delay reduced modulo 2^32: a
    call never blocks for less than 432 ms and never for more than
    432 + 4294967295 ms. *)
Theorem servo_blocking_bounds (k : nat) (delayTime : Z) (w : world) :
  exists tr,
    issued (servo (133 + k) delayTime) w = Some tr /\
    blocking_ms tr = 432 + delayTime mod 2 ^ 32 /\
    432 <= blocking_ms tr <= 432 + 4294967295.
Proof.
  exists (sweep_calls delayTime).
  split; [apply servo_issued|]. rewrite blocking_ms_sweep.
  split; [reflexivity|].
  pose proof (to_uint32_bounds delayTime) as H.
  unfold Int32.modulus in H. lia.
Qed.

(** X2. Within any run of successive sweep calls two angles commanded one
    after the other are never more than one degree apart: not inside a
    phase, not at the turn, and not from the end of one call to the
    start of the next. *)
Theorem servo_cycles_one_degree_steps (k : nat) (delayTimes : list Z)
        (w : world) :
  exists tr,
    issued (servo_cycles (133 + k) delayTimes) w = Some tr /\
    smooth (commanded tr) = true /\
    (forall i a b,
        nth_error (commanded tr) i = Some a ->
        nth_error (commanded tr) (S i) = Some b ->
        Z.abs (a - b) <= 1).
Proof.
  exists (concat (map sweep_calls delayTimes)).
  split; [apply issued_replay, servo_cycles_run|].
  rewrite commanded_cycles.
  split; [apply smooth_cycles | apply smooth_nth, smooth_cycles].
Qed.

(** X3. The forward phase of a sweep retraces the backward phase: the
    angles commanded by a call are 176 ... 45 followed by the same angles
    in reverse order, so the sequence reads the same backwards, starts and
    ends at 176, and commands the turning angle 45 twice in a row. *)
Theorem servo_retraces (k : nat) (delayTime : Z) (w : world) :
  exists tr,
    issued (servo (133 + k) delayTime) w = Some tr /\
    commanded tr = descending ++ rev descending /\
    rev (commanded tr) = commanded tr /\
    hd_error (commanded tr) = Some 176 /\
    last (commanded tr) 0 = 176 /\
    nth_error (commanded tr) 131 = Some 45 /\
    nth_error (commanded tr) 132 = Some 45 /\
    length (commanded tr) = 264%nat.
Proof.
  exists (sweep_calls delayTime).
  split; [apply servo_issued|]. rewrite commanded_sweep.
  repeat split; reflexivity.
Qed.

(** X4. Counting the milliseconds of [delay] asked for since the start of
    a sweep call, the i-th angle of the backward phase (176 - i) is
    commanded at i ms, and every angle of the forward phase is commanded at
    432 ms; the cycle delay has no part in it. *)
Theorem servo_timeline (k : nat) (delayTime : Z) (w : world) :
  exists tr,
    issued (servo (133 + k) delayTime) w = Some tr /\
    timeline 0 tr
    = map (fun i => (Z.of_nat i, 176 - Z.of_nat i)) (seq 0 132)
      ++ map (fun i => (432, 45 + Z.of_nat i)) (seq 0 132).
Proof.
  exists (sweep_calls delayTime).
  split; [apply servo_issued|].
  unfold sweep_calls. rewrite timeline_app.
  cbn [timeline]. rewrite app_nil_r. reflexivity.
Qed.

(** X5. Any number of successive sweep calls, from any world, returns and
    issues the calls of each sweep one after the other: as many full
    traversals as there are calls, and a blocking time of 432 ms for each
    call plus the cycle delays as [delay] receives them. *)
Theorem servo_cycles_compose (k : nat) (delayTimes : list Z) (w : world) :
  servo_cycles (133 + k) delayTimes w
  = Some (tt, replay (concat (map sweep_calls delayTimes)) w) /\
  issued (servo_cycles (133 + k) delayTimes) w
  = Some (concat (map sweep_calls delayTimes)) /\
  commanded (concat (map sweep_calls delayTimes))
  = concat (repeat (descending ++ ascending) (length delayTimes)) /\
  blocking_ms (concat (map sweep_calls delayTimes))
  = 432 * Z.of_nat (length delayTimes)
    + fold_right Z.add 0 (map (fun d => d mod 2 ^ 32) delayTimes).
Proof.
  split; [apply servo_cycles_run|].
  split; [apply issued_replay, servo_cycles_run|].
  split; [apply commanded_cycles | apply blocking_ms_cycles].
Qed.

(** X6. The loop counters never leave the range of an [int]: with as much
    or as little fuel as one likes, both loops of the sweep behave with
    the wrapping [pos--] and [pos++] exactly as with the decrement and
    increment of unbounded integers. *)
Theorem servo_loops_no_overflow (fuel : nat) (w : world) :
  for_loop fuel (fun pos => pos >=? 45) Int32.pred
           (fun pos => write pos ;; delay 1) 176 w
  = for_loop fuel (fun pos => pos >=? 45) Z.pred
             (fun pos => write pos ;; delay 1) 176 w /\
  for_loop fuel (fun pos => pos <=? 176) Int32.succ
           (fun pos => write pos) 45 w
  = for_loop fuel (fun pos => pos <=? 176) Z.succ
             (fun pos => write pos) 45 w.
Proof.
  split; [apply count_down_exact | apply count_up_exact]; lia.
Qed.

(** X7. After [servoInit] and any number of sweep calls the handle still
    has the configuration of [servoInit] (333 Hz, pin 33, 900 and 2100
    microseconds), and its position register holds 176 as soon as one
    sweep was made, the position the world had before otherwise. *)
Theorem servoInit_then_cycles (k : nat) (delayTimes : list Z) (w : world) :
  exists w',
    (servoInit ;; servo_cycles (133 + k) delayTimes) w = Some (tt, w') /\
    config (myservo w') = mkConfig 333 (Some 33) 900 2100 /\
    position (myservo w')
    = match delayTimes with
      | [] => position (myservo w)
      | _ :: _ => Some 176
      end.
Proof.
  exists (replay (concat (map sweep_calls delayTimes)) (replay init_calls w)).
  split.
  - rewrite (bind_run servoInit _ w tt (replay init_calls w) eq_refl).
    apply servo_cycles_run.
  - split.
    + rewrite config_replay by apply kinds_cycles. reflexivity.
    + rewrite position_cycles. destruct delayTimes; reflexivity.
Qed.

(** X8. For a cycle delay that is an [int], the trailing pause of a sweep
    call lasts the milliseconds the caller passed exactly when the
    argument is not negative. *)
Theorem servo_trailing_pause_faithful (k : nat) (delayTime : Z) (w : world) :
  Int32.in_range delayTime ->
  exists tr,
    issued (servo (133 + k) delayTime) w = Some tr /\
    (last tr (EvWrite 0) = EvDelay delayTime <-> 0 <= delayTime).
Proof.
  intros Hr. exists (sweep_calls delayTime).
  split; [apply servo_issued|].
  unfold sweep_calls. rewrite last_last.
  unfold Int32.in_range in Hr. split.
  - intros H. injection H as H.
    pose proof (to_uint32_bounds delayTime). lia.
  - intros H. now rewrite to_uint32_nonneg by lia.
Qed.

Lemma servo_trailing_pause_faithful_witness :
  Int32.in_range 2000 /\
  exists tr,
    issued (servo 133 2000) power_on = Some tr /\
    (last tr (EvWrite 0) = EvDelay 2000 <-> 0 <= 2000).
Proof.
  assert (Hr : Int32.in_range 2000)
    by (unfold Int32.in_range, Int32.half; lia).
  split; [exact Hr|].
  exact (servo_trailing_pause_faithful 0 2000 power_on Hr).
Defined.
